(** * SSELoss: the sum-of-squared-error loss of the xgboost trees

    Shallow embedding of [src/mlpack/methods/xgboost/loss_functions/sse_loss.hpp]
    and the numeric contract of its seven member functions.

    Numbers.  The element type of the vectors and the [double] scalars are
    modelled by exact rationals [Q]; rounding, overflow and the IEEE special
    values are outside the model.  Scalars are compared with [==] ([Qeq]),
    since a rational has many representations.  The one place where a
    [double] computation can leave the rationals is a quotient with a zero
    divisor (an infinity or a NaN in the source): the model reports it as
    the error [non_finite] instead of inventing a value.

    Vectors.  An Armadillo column vector is a [list Q]; [size_t] indices are
    [nat].  The library calls the class relies on ([accu], [subvec],
    element-wise [operator-], the [fill::ones] constructor) are modelled in
    [Module arma], with the bounds and size checks of the library written
    out as the error [logic_error]. *)

From Stdlib Require Import ZArith QArith Qabs Lqa Lia List Arith Bool.
Import ListNotations.
Open Scope Q_scope.

(** ** Results of fallible computations *)

Inductive error : Type :=
| logic_error   (* a bounds or size check of the vector library failed *)
| non_finite.   (* a quotient by a zero divisor: no rational value *)

Inductive result (A : Type) : Type :=
| Ok (a : A)
| Err (e : error).

Arguments Ok {A} a.
Arguments Err {A} e.

Definition bind {A B : Type} (r : result A) (k : A -> result B) : result B :=
  match r with
  | Ok a => k a
  | Err e => Err e
  end.

Notation "x <- r ;; k" := (bind r (fun x => k))
  (at level 61, r at next level, right associativity).

(** [returns r q]: the computation [r] succeeds with a scalar equal to [q]. *)
Definition returns (r : result Q) (q : Q) : Prop :=
  match r with
  | Ok a => a == q
  | Err _ => False
  end.

(** Strict comparison of two scalars, as a boolean. *)
Definition Qltb (x y : Q) : bool :=
  match x ?= y with
  | Lt => true
  | _ => false
  end.

(** The quotient [n / d] of two scalars. *)
Definition divide (n d : Q) : result Q :=
  if Qeq_bool d 0 then Err non_finite else Ok (n / d).

(** The conversion of an element count to the element type. *)
Definition of_size (n : nat) : Q := inject_Z (Z.of_nat n).

(** ** The vector operations used by the class *)

Definition vec : Type := list Q.

Module arma.

(** [accu(v)]: the sum of all elements. *)
Definition accu (v : vec) : Q := fold_left Qplus v 0.

(** [v.subvec(first, last)]: the elements at the inclusive index range
    [first..last]; the range is checked against the vector. *)
Definition subvec (v : vec) (first last : nat) : result vec :=
  if ((first <=? last) && (last <? length v))%nat
  then Ok (firstn (last - first + 1) (skipn first v))
  else Err logic_error.

(** [a - b]: element-wise difference; the sizes are checked. *)
Definition minus (a b : vec) : result vec :=
  if (length a =? length b)%nat
  then Ok (map (fun p => fst p - snd p) (combine a b))
  else Err logic_error.

(** [VecType h(n, fill::ones)]. *)
Definition ones (n : nat) : vec := repeat 1 n.

End arma.

(** ** The class *)

Record SSELoss : Type := mkSSELoss {
  alpha : Q;   (* the L1 regularization parameter *)
  lambda : Q   (* the L2 regularization parameter *)
}.

(** Default constructor: no regularization. *)
Definition SSELoss_default : SSELoss := mkSSELoss 0 0.

(** [SSELoss(alpha, lambda)]. *)
Definition SSELoss_new (alpha lambda : Q) : SSELoss := mkSSELoss alpha lambda.

(** The member functions.  [self] is the object; the functions that do not
    read its two fields do not take it. *)

Section Methods.

Variable self : SSELoss.

(** Applies the L1 regularization. *)
Definition ApplyL1 (sumGradients : Q) : Q :=
  if Qltb (alpha self) sumGradients then sumGradients - alpha self
  else if Qltb sumGradients (- alpha self) then sumGradients + alpha self
  else 0.

(** Returns the initial prediction for gradient boosting. *)
Definition InitialPrediction (values : vec) : result Q :=
  if (length values =? 0)%nat then Ok 0
  else divide (arma.accu values) (of_size (length values)).

(** First order gradient of the loss with respect to the values. *)
Definition Gradients (observed values : vec) : result vec :=
  arma.minus values observed.

(** Second order gradient of the loss with respect to the values. *)
Definition Hessians (observed values : vec) : vec :=
  arma.ones (length values).

(** Pseudo residuals of the predictions. *)
Definition Residuals (observed f : vec) : result vec :=
  arma.minus observed f.

(** Output value for the leaf in the tree. *)
Definition OutputValue (gradients hessians : vec) : result Q :=
  divide (- ApplyL1 (arma.accu gradients))
         (arma.accu hessians + lambda self).

(** The local [gradients] of [SimilarityScore]. *)
Definition SimilarityScore_gradients
    (observed residuals : vec) (begin end_ : nat) : result vec :=
  o <- arma.subvec observed begin end_ ;;
  r <- arma.subvec residuals begin end_ ;;
  Gradients o r.

(** The local [hessians] of [SimilarityScore]. *)
Definition SimilarityScore_hessians
    (observed residuals : vec) (begin end_ : nat) : result vec :=
  o <- arma.subvec observed begin end_ ;;
  r <- arma.subvec residuals begin end_ ;;
  Ok (Hessians o r).

(** Similarity score for evaluating the splits. *)
Definition SimilarityScore
    (observed residuals : vec) (begin end_ : nat) : result Q :=
  gradients <- SimilarityScore_gradients observed residuals begin end_ ;;
  hessians <- SimilarityScore_hessians observed residuals begin end_ ;;
  divide (ApplyL1 (arma.accu gradients) ^ 2)
         (arma.accu hessians + lambda self).

End Methods.

(** ** Reference definitions for the statements *)

(** The sum of a sequence, by recursion on it. *)
Fixpoint spec_sum (v : vec) : Q :=
  match v with
  | [] => 0
  | x :: v' => x + spec_sum v'
  end.

(** The arithmetic mean of a sequence: its sum over its length. *)
Definition spec_mean (v : vec) : Q := spec_sum v / of_size (length v).

(** Element-wise negation of a vector, [-v]. *)
Definition neg (v : vec) : vec := map Qopp v.

(** The loss of one sample, as the comment of the class documents it:
    [Loss = 1 / 2 * (Observed - Predicted)^2]. *)
Definition Loss (observed predicted : Q) : Q :=
  (1 # 2) * (observed - predicted) ^ 2.

(** The documented loss summed over the samples of a leaf, when the leaf
    adds the value [w] to each current prediction [f]. *)
Fixpoint leaf_Loss (observed f : vec) (w : Q) : Q :=
  match observed, f with
  | o :: observed', p :: f' => Loss o (p + w) + leaf_Loss observed' f' w
  | _, _ => 0
  end.

(** The objective the two regularization parameters stand for: the
    documented loss of the leaf, plus the L2 penalty [lambda / 2 * w^2] and
    the L1 penalty [alpha * |w|] on the leaf value [w]. *)
Definition regularized_Loss (self : SSELoss) (observed f : vec) (w : Q) : Q :=
  leaf_Loss observed f w
  + (1 # 2) * lambda self * (w * w)
  + alpha self * Qabs w.

(** ** Facts about the scalar helpers *)

Lemma Qltb_true (x y : Q) : Qltb x y = true <-> x < y.
Proof.
  unfold Qltb. rewrite Qlt_alt.
  destruct (x ?= y); split; intro H; congruence.
Qed.

Lemma Qltb_false (x y : Q) : Qltb x y = false <-> y <= x.
Proof.
  split; intro H.
  - apply Qnot_lt_le. intro L. apply Qltb_true in L. congruence.
  - destruct (Qltb x y) eqn:E; trivial.
    apply Qltb_true in E. lra.
Qed.

Lemma Qltb_spec (x y : Q) : reflect (x < y) (Qltb x y).
Proof.
  destruct (Qltb x y) eqn:E; constructor.
  - now apply Qltb_true.
  - apply Qltb_false in E. lra.
Qed.

Lemma divide_ok (n d : Q) : ~ d == 0 -> divide n d = Ok (n / d).
Proof.
  intro H. unfold divide.
  destruct (Qeq_bool d 0) eqn:E; trivial.
  apply Qeq_bool_iff in E. contradiction.
Qed.

Lemma divide_zero (n d : Q) : d == 0 -> divide n d = Err non_finite.
Proof.
  intro H. unfold divide. apply Qeq_bool_iff in H. now rewrite H.
Qed.

Lemma of_size_S (n : nat) : of_size (S n) == 1 + of_size n.
Proof.
  unfold of_size. rewrite Nat2Z.inj_succ, <- Z.add_1_l, inject_Z_plus.
  reflexivity.
Qed.

Lemma of_size_nonneg (n : nat) : 0 <= of_size n.
Proof.
  induction n as [|n IH].
  - unfold of_size, Qle. simpl. lia.
  - rewrite of_size_S. lra.
Qed.

Lemma of_size_pos (n : nat) : (0 < n)%nat -> 1 <= of_size n.
Proof.
  destruct n as [|n]; [lia|]. intros _.
  rewrite of_size_S. pose proof (of_size_nonneg n). lra.
Qed.

(** ** Facts about the vector operations *)

Lemma fold_left_Qplus (v : vec) (a : Q) :
  fold_left Qplus v a == a + fold_left Qplus v 0.
Proof.
  revert a. induction v as [|x v IH]; intro a; simpl.
  - lra.
  - rewrite (IH (a + x)), (IH (0 + x)). lra.
Qed.

Lemma accu_nil : arma.accu [] == 0.
Proof. reflexivity. Qed.

Lemma accu_cons (x : Q) (v : vec) : arma.accu (x :: v) == x + arma.accu v.
Proof.
  unfold arma.accu. simpl. rewrite fold_left_Qplus. lra.
Qed.

Lemma accu_ones (n : nat) : arma.accu (arma.ones n) == of_size n.
Proof.
  induction n as [|n IH].
  - reflexivity.
  - change (arma.ones (S n)) with (1 :: arma.ones n).
    rewrite accu_cons, IH, of_size_S. reflexivity.
Qed.

Lemma accu_opp (v : vec) : arma.accu (map Qopp v) == - arma.accu v.
Proof.
  induction v as [|x v IH].
  - reflexivity.
  - change (map Qopp (x :: v)) with (- x :: map Qopp v).
    rewrite !accu_cons, IH. lra.
Qed.

Lemma minus_ok (a b : vec) :
  length a = length b ->
  arma.minus a b = Ok (map (fun p => fst p - snd p) (combine a b)).
Proof.
  intro H. unfold arma.minus. now rewrite H, Nat.eqb_refl.
Qed.

Lemma minus_inv (a b d : vec) :
  arma.minus a b = Ok d ->
  length a = length b /\ d = map (fun p => fst p - snd p) (combine a b).
Proof.
  unfold arma.minus. destruct (length a =? length b)%nat eqn:E; [|discriminate].
  apply Nat.eqb_eq in E. intro H. injection H as <-. now split.
Qed.

Lemma minus_length (a b d : vec) :
  arma.minus a b = Ok d -> length d = length a.
Proof.
  intro H. apply minus_inv in H as [L ->].
  rewrite length_map, length_combine. lia.
Qed.

Lemma minus_nth (a b d : vec) (i : nat) :
  arma.minus a b = Ok d -> (i < length a)%nat ->
  nth i d 0 = nth i a 0 - nth i b 0.
Proof.
  intros H Hi. apply minus_inv in H as [L ->].
  revert b i L Hi.
  induction a as [|x a IH]; intros [|y b] i L Hi; simpl in *; try lia.
  destruct i as [|i]; [reflexivity|]. apply IH; lia.
Qed.

Lemma accu_combine_minus (a b : vec) :
  length a = length b ->
  arma.accu (map (fun p => fst p - snd p) (combine a b))
  == arma.accu a - arma.accu b.
Proof.
  revert b. induction a as [|x a IH]; intros [|y b] L; simpl in L; try lia.
  - reflexivity.
  - simpl map. rewrite !accu_cons, IH by lia. simpl. lra.
Qed.

Lemma accu_minus (a b d : vec) :
  arma.minus a b = Ok d -> arma.accu d == arma.accu a - arma.accu b.
Proof.
  intro H. apply minus_inv in H as [L ->]. now apply accu_combine_minus.
Qed.

Lemma subvec_ok (v : vec) (first last : nat) :
  (first <= last)%nat -> (last < length v)%nat ->
  arma.subvec v first last
  = Ok (firstn (last - first + 1) (skipn first v)).
Proof.
  intros H1 H2. unfold arma.subvec.
  apply Nat.leb_le in H1. apply Nat.ltb_lt in H2. now rewrite H1, H2.
Qed.

Lemma subvec_inv (v s : vec) (first last : nat) :
  arma.subvec v first last = Ok s ->
  (first <= last)%nat /\ (last < length v)%nat /\
  s = firstn (last - first + 1) (skipn first v).
Proof.
  unfold arma.subvec.
  destruct ((first <=? last) && (last <? length v))%nat eqn:E; [|discriminate].
  apply andb_true_iff in E as [E1 E2].
  apply Nat.leb_le in E1. apply Nat.ltb_lt in E2.
  intro H. injection H as <-. auto.
Qed.

Lemma subvec_length (v s : vec) (first last : nat) :
  arma.subvec v first last = Ok s -> length s = (last - first + 1)%nat.
Proof.
  intro H. apply subvec_inv in H as (H1 & H2 & ->).
  rewrite length_firstn, length_skipn. lia.
Qed.

Lemma subvec_nth (v s : vec) (first last i : nat) :
  arma.subvec v first last = Ok s -> (i <= last - first)%nat ->
  nth i s 0 = nth (first + i) v 0.
Proof.
  intros H Hi. apply subvec_inv in H as (H1 & H2 & ->).
  rewrite nth_firstn.
  replace (i <? last - first + 1)%nat with true
    by (symmetry; apply Nat.ltb_lt; lia).
  now rewrite nth_skipn.
Qed.

Lemma accu_spec_sum (v : vec) : arma.accu v == spec_sum v.
Proof.
  induction v as [|x v IH].
  - reflexivity.
  - rewrite accu_cons, IH. reflexivity.
Qed.

(** ** Facts about [ApplyL1] *)

Ltac ApplyL1_cases :=
  unfold ApplyL1;
  repeat match goal with
         | |- context [Qltb ?x ?y] => destruct (Qltb_spec x y)
         end.

Lemma ApplyL1_compat (self : SSELoss) (s t : Q) :
  s == t -> ApplyL1 self s == ApplyL1 self t.
Proof. intro E. ApplyL1_cases; lra. Qed.

Lemma ApplyL1_no_L1 (self : SSELoss) (s : Q) :
  alpha self == 0 -> ApplyL1 self s == s.
Proof. intro E. ApplyL1_cases; lra. Qed.

Lemma ApplyL1_opp (self : SSELoss) (s : Q) :
  0 <= alpha self -> ApplyL1 self (- s) == - ApplyL1 self s.
Proof. intro A. ApplyL1_cases; lra. Qed.

Lemma Qsquare_nonneg (x : Q) : 0 <= x ^ 2.
Proof. simpl. nra. Qed.

(** ** How [SimilarityScore] runs on a valid range *)

Lemma SimilarityScore_run (self : SSELoss) (observed residuals : vec)
    (begin end_ : nat) :
  (begin <= end_)%nat ->
  (end_ < length observed)%nat -> (end_ < length residuals)%nat ->
  exists os rs g,
    arma.subvec observed begin end_ = Ok os /\
    arma.subvec residuals begin end_ = Ok rs /\
    Gradients os rs = Ok g /\
    SimilarityScore_gradients observed residuals begin end_ = Ok g /\
    SimilarityScore_hessians observed residuals begin end_
      = Ok (Hessians os rs) /\
    arma.accu (Hessians os rs) == of_size (end_ - begin + 1) /\
    SimilarityScore self observed residuals begin end_
      = divide (ApplyL1 self (arma.accu g) ^ 2)
               (arma.accu (Hessians os rs) + lambda self).
Proof.
  intros Hr Ho Hs.
  pose proof (subvec_ok observed begin end_ Hr Ho) as Eo.
  pose proof (subvec_ok residuals begin end_ Hr Hs) as Es.
  set (os := firstn _ (skipn begin observed)) in Eo.
  set (rs := firstn _ (skipn begin residuals)) in Es.
  assert (L : length rs = length os)
    by now rewrite (subvec_length _ _ _ _ Eo), (subvec_length _ _ _ _ Es).
  pose proof (minus_ok rs os L) as Eg.
  set (g := map _ (combine rs os)) in Eg.
  exists os, rs, g.
  assert (EG : SimilarityScore_gradients observed residuals begin end_ = Ok g)
    by (unfold SimilarityScore_gradients; rewrite Eo, Es; exact Eg).
  assert (EH : SimilarityScore_hessians observed residuals begin end_
               = Ok (Hessians os rs))
    by (unfold SimilarityScore_hessians; now rewrite Eo, Es).
  repeat split; trivial.
  - unfold Hessians. rewrite accu_ones, (subvec_length _ _ _ _ Es).
    reflexivity.
  - unfold SimilarityScore. rewrite EG, EH. reflexivity.
Qed.

(** * The claims *)

(** C4.  For a non-negative [alpha], [ApplyL1 s] is [s - alpha] when
    [s > alpha], [s + alpha] when [s < - alpha], and [0] in every other
    case; with [alpha = 2] it sends 5 to 3, -5 to -3, and 1, -1 and 2 to 0. *)
Theorem ApplyL1_soft_threshold :
  (forall (self : SSELoss) (s : Q),
      0 <= alpha self ->
      (alpha self < s -> ApplyL1 self s = s - alpha self) /\
      (s < - alpha self -> ApplyL1 self s = s + alpha self) /\
      (~ alpha self < s -> ~ s < - alpha self -> ApplyL1 self s = 0)) /\
  (forall self : SSELoss,
      alpha self == 2 ->
      ApplyL1 self 5 == 3 /\ ApplyL1 self (-5) == -3 /\
      ApplyL1 self 1 == 0 /\ ApplyL1 self (-1) == 0 /\
      ApplyL1 self 2 == 0).
Proof.
  split.
  - intros self s A. repeat split; intros; ApplyL1_cases;
      solve [reflexivity | exfalso; lra | contradiction].
  - intros self A. repeat split; ApplyL1_cases; lra.
Qed.

Lemma ApplyL1_soft_threshold_witness :
  let self := SSELoss_new 2 0 in
  ApplyL1 self 5 = 5 - 2 /\ ApplyL1 self (-5) = -5 + 2 /\
  ApplyL1 self 2 = 0 /\ ApplyL1 self 1 == 0.
Proof.
  intro self.
  assert (A : 0 <= alpha self) by (simpl; lra).
  refine (conj _ (conj _ (conj _ _))).
  - apply (proj1 ApplyL1_soft_threshold self 5 A). simpl. lra.
  - apply (proj1 ApplyL1_soft_threshold self (-5) A). simpl. lra.
  - apply (proj1 ApplyL1_soft_threshold self 2 A); simpl; lra.
  - apply (proj2 ApplyL1_soft_threshold self). simpl. lra.
Defined.

(** C5.  [InitialPrediction] returns the arithmetic mean of a non-empty
    sequence, and returns 0, not an error, for the empty one. *)
Theorem InitialPrediction_mean :
  (forall values : vec,
      values <> [] -> returns (InitialPrediction values) (spec_mean values)) /\
  InitialPrediction [] = Ok 0.
Proof.
  split; [|reflexivity].
  intros values N. unfold InitialPrediction.
  destruct values as [|x values]; [congruence|].
  change (length (x :: values) =? 0)%nat with false. cbv iota.
  rewrite divide_ok.
  - unfold returns, spec_mean. now rewrite accu_spec_sum.
  - pose proof (of_size_pos (length (x :: values))) as P.
    simpl length in *. specialize (P ltac:(lia)). lra.
Qed.

Lemma InitialPrediction_mean_witness :
  returns (InitialPrediction [1; 2; 3; 4]) (spec_mean [1; 2; 3; 4]).
Proof.
  apply (proj1 InitialPrediction_mean). discriminate.
Defined.

(** C6.  On two sequences of equal length, [Gradients observed values] is
    [values - observed] element by element, [Residuals observed f] is
    [observed - f] element by element, and so each residual is the opposite
    of the gradient at the same index. *)
Theorem Gradients_Residuals_elementwise (observed values : vec)
    (Hlen : length observed = length values) :
  exists g r : vec,
    Gradients observed values = Ok g /\
    Residuals observed values = Ok r /\
    length g = length observed /\ length r = length observed /\
    forall i : nat, (i < length observed)%nat ->
      nth i g 0 = nth i values 0 - nth i observed 0 /\
      nth i r 0 = nth i observed 0 - nth i values 0 /\
      nth i r 0 == - nth i g 0.
Proof.
  pose proof (minus_ok values observed (eq_sym Hlen)) as Eg.
  pose proof (minus_ok observed values Hlen) as Er.
  set (g := map _ (combine values observed)) in Eg.
  set (r := map _ (combine observed values)) in Er.
  exists g, r. unfold Gradients, Residuals.
  split; [exact Eg|]. split; [exact Er|].
  split; [rewrite (minus_length _ _ _ Eg); now symmetry|].
  split; [exact (minus_length _ _ _ Er)|].
  intros i Hi.
  assert (Ng : nth i g 0 = nth i values 0 - nth i observed 0)
    by (apply (minus_nth _ _ _ _ Eg); now rewrite <- Hlen).
  assert (Nr : nth i r 0 = nth i observed 0 - nth i values 0)
    by now apply (minus_nth _ _ _ _ Er).
  split; [exact Ng|]. split; [exact Nr|].
  rewrite Ng, Nr. lra.
Qed.

Lemma Gradients_Residuals_elementwise_witness :
  exists g r : vec,
    Gradients [1; 2; 3; 4] [1; 1; 1; 1] = Ok g /\
    Residuals [1; 2; 3; 4] [1; 1; 1; 1] = Ok r /\
    length g = 4%nat /\ length r = 4%nat /\
    forall i : nat, (i < 4)%nat ->
      nth i g 0 = nth i [1; 1; 1; 1] 0 - nth i [1; 2; 3; 4] 0 /\
      nth i r 0 = nth i [1; 2; 3; 4] 0 - nth i [1; 1; 1; 1] 0 /\
      nth i r 0 == - nth i g 0.
Proof.
  apply (Gradients_Residuals_elementwise [1; 2; 3; 4] [1; 1; 1; 1]).
  reflexivity.
Defined.

(** C7.  [Hessians observed values] has the length of [values], each of its
    entries is 1, and it is the same vector whatever [observed] is. *)
Theorem Hessians_ones (observed values : vec) :
  length (Hessians observed values) = length values /\
  Forall (fun h => h = 1) (Hessians observed values) /\
  forall observed' : vec, Hessians observed' values = Hessians observed values.
Proof.
  unfold Hessians, arma.ones. repeat split.
  - apply repeat_length.
  - apply Forall_forall. intros h Hin. now apply repeat_spec in Hin.
Qed.

(** C3.  When its divisor is not zero, [OutputValue gradients hessians] is
    [- ApplyL1 (sum gradients) / (sum hessians + lambda)]; without L1
    regularization ([alpha = 0]) it is
    [- sum gradients / (sum hessians + lambda)], and without any
    regularization it is [- sum gradients / sum hessians]. *)
Theorem OutputValue_formula (self : SSELoss) (gradients hessians : vec)
    (Hden : ~ arma.accu hessians + lambda self == 0) :
  returns (OutputValue self gradients hessians)
          (- ApplyL1 self (arma.accu gradients)
             / (arma.accu hessians + lambda self)) /\
  (alpha self == 0 ->
   returns (OutputValue self gradients hessians)
           (- arma.accu gradients / (arma.accu hessians + lambda self))) /\
  (alpha self == 0 -> lambda self == 0 ->
   returns (OutputValue self gradients hessians)
           (- arma.accu gradients / arma.accu hessians)).
Proof.
  unfold OutputValue. rewrite (divide_ok _ _ Hden). unfold returns.
  split; [reflexivity|]. split.
  - intro A. now rewrite (ApplyL1_no_L1 self _ A).
  - intros A L. rewrite (ApplyL1_no_L1 self _ A), L.
    now rewrite Qplus_0_r.
Qed.

Lemma OutputValue_formula_witness :
  returns (OutputValue SSELoss_default [0; -1; -2; -3] [1; 1; 1; 1])
          (- arma.accu [0; -1; -2; -3] / arma.accu [1; 1; 1; 1]).
Proof.
  apply (OutputValue_formula SSELoss_default [0; -1; -2; -3] [1; 1; 1; 1]).
  - vm_compute. discriminate.
  - reflexivity.
  - reflexivity.
Defined.

(** C10.  For a non-negative [alpha] and a divisor that is not zero,
    negating every gradient negates the output value:
    [OutputValue (- gradients) hessians = - OutputValue gradients hessians]. *)
Theorem OutputValue_odd (self : SSELoss) (gradients hessians : vec)
    (Halpha : 0 <= alpha self)
    (Hden : ~ arma.accu hessians + lambda self == 0) :
  exists out : Q,
    OutputValue self gradients hessians = Ok out /\
    returns (OutputValue self (neg gradients) hessians) (- out).
Proof.
  unfold OutputValue. rewrite !(divide_ok _ _ Hden).
  eexists. split; [reflexivity|]. unfold returns, neg.
  rewrite (ApplyL1_compat self _ _ (accu_opp gradients)).
  rewrite (ApplyL1_opp self _ Halpha).
  field. exact Hden.
Qed.

Lemma OutputValue_odd_witness :
  exists out : Q,
    OutputValue (SSELoss_new 1 2) [0; -1; -2; -3] [1; 1; 1; 1] = Ok out /\
    returns (OutputValue (SSELoss_new 1 2) (neg [0; -1; -2; -3]) [1; 1; 1; 1])
            (- out).
Proof.
  apply (OutputValue_odd (SSELoss_new 1 2) [0; -1; -2; -3] [1; 1; 1; 1]).
  - vm_compute. discriminate.
  - vm_compute. discriminate.
Defined.

(** C8.  On a valid inclusive range, with [alpha >= 0] and [lambda >= 0],
    [SimilarityScore] returns a score, and the score is not negative. *)
Theorem SimilarityScore_nonneg (self : SSELoss) (observed residuals : vec)
    (begin end_ : nat)
    (Hrange : (begin <= end_)%nat)
    (Hobs : (end_ < length observed)%nat)
    (Hres : (end_ < length residuals)%nat)
    (Halpha : 0 <= alpha self) (Hlambda : 0 <= lambda self) :
  exists score : Q,
    SimilarityScore self observed residuals begin end_ = Ok score /\
    0 <= score.
Proof.
  destruct (SimilarityScore_run self observed residuals begin end_
              Hrange Hobs Hres)
    as (os & rs & g & _ & _ & _ & _ & _ & Eh & ->).
  pose proof (of_size_pos (end_ - begin + 1) ltac:(lia)) as P.
  assert (D : 0 < arma.accu (Hessians os rs) + lambda self)
    by (rewrite Eh; lra).
  rewrite divide_ok by lra.
  eexists. split; [reflexivity|].
  apply Qle_shift_div_l; [exact D|].
  rewrite Qmult_0_l. apply Qsquare_nonneg.
Qed.

Lemma SimilarityScore_nonneg_witness :
  exists score : Q,
    SimilarityScore (SSELoss_new 1 2) [1; 2; 3; 4] [1; 1; 1; 1] 1 3 = Ok score /\
    0 <= score.
Proof.
  apply (SimilarityScore_nonneg (SSELoss_new 1 2) [1; 2; 3; 4] [1; 1; 1; 1]
           1 3); simpl; first [lia | lra].
Defined.

(** C9.  On a valid inclusive range and with [lambda >= 0], the divisor of
    [SimilarityScore] is [(end - begin + 1) + lambda], which is at least 1,
    so the quotient is taken and a score is returned; the divisor of
    [OutputValue] has no such bound: on empty inputs with [lambda = 0] it
    is zero and no value is returned. *)
Theorem SimilarityScore_divisor_positive :
  (forall (self : SSELoss) (observed residuals : vec) (begin end_ : nat),
      (begin <= end_)%nat ->
      (end_ < length observed)%nat -> (end_ < length residuals)%nat ->
      0 <= lambda self ->
      exists g h : vec,
        SimilarityScore_gradients observed residuals begin end_ = Ok g /\
        SimilarityScore_hessians observed residuals begin end_ = Ok h /\
        arma.accu h + lambda self
          == of_size (end_ - begin + 1) + lambda self /\
        1 <= arma.accu h + lambda self /\
        SimilarityScore self observed residuals begin end_
          = Ok (ApplyL1 self (arma.accu g) ^ 2
                / (arma.accu h + lambda self))) /\
  (forall self : SSELoss,
      lambda self == 0 ->
      arma.accu [] + lambda self == 0 /\
      OutputValue self [] [] = Err non_finite).
Proof.
  split.
  - intros self observed residuals begin end_ Hrange Hobs Hres Hlambda.
    destruct (SimilarityScore_run self observed residuals begin end_
                Hrange Hobs Hres)
      as (os & rs & g & _ & _ & _ & Eg & Eh & Ea & ->).
    pose proof (of_size_pos (end_ - begin + 1) ltac:(lia)) as P.
    exists g, (Hessians os rs).
    split; [exact Eg|]. split; [exact Eh|].
    split; [now rewrite Ea|]. split; [rewrite Ea; lra|].
    apply divide_ok. rewrite Ea. lra.
  - intros self L.
    assert (Z : arma.accu [] + lambda self == 0)
      by (rewrite accu_nil, L; reflexivity).
    split; [exact Z|]. unfold OutputValue. now apply divide_zero.
Qed.

Lemma SimilarityScore_divisor_positive_witness :
  (exists g h : vec,
      SimilarityScore_gradients [1; 2; 3; 4] [1; 1; 1; 1] 1 3 = Ok g /\
      SimilarityScore_hessians [1; 2; 3; 4] [1; 1; 1; 1] 1 3 = Ok h /\
      arma.accu h + 2 == of_size (3 - 1 + 1) + 2 /\
      1 <= arma.accu h + 2 /\
      SimilarityScore (SSELoss_new 1 2) [1; 2; 3; 4] [1; 1; 1; 1] 1 3
        = Ok (ApplyL1 (SSELoss_new 1 2) (arma.accu g) ^ 2
              / (arma.accu h + 2))) /\
  OutputValue SSELoss_default [] [] = Err non_finite.
Proof.
  refine (conj _ _).
  - apply (proj1 SimilarityScore_divisor_positive (SSELoss_new 1 2)
             [1; 2; 3; 4] [1; 1; 1; 1] 1%nat 3%nat); simpl; first [lia | lra].
  - apply (proj2 SimilarityScore_divisor_positive SSELoss_default).
    reflexivity.
Defined.

(** C2.  With [observed = [1;2;3;4]], [residuals = [1;1;1;1]] and the range
    [0..3], the gradients sum to -6 and the hessians to 4, and
    [SimilarityScore] returns 9 without regularization, 6 with
    [lambda = 2], and 25/4 with [alpha = 1], where the thresholded gradient
    sum is -5. *)
Theorem SimilarityScore_scenarios :
  let observed := [1; 2; 3; 4] in
  let residuals := [1; 1; 1; 1] in
  (exists g h : vec,
      SimilarityScore_gradients observed residuals 0 3 = Ok g /\
      SimilarityScore_hessians observed residuals 0 3 = Ok h /\
      Forall2 Qeq g [0; -1; -2; -3] /\
      arma.accu g == -6 /\ arma.accu h == 4) /\
  returns (SimilarityScore SSELoss_default observed residuals 0 3) 9 /\
  returns (SimilarityScore (SSELoss_new 0 2) observed residuals 0 3) 6 /\
  ApplyL1 (SSELoss_new 1 0) (-6) == -5 /\
  returns (SimilarityScore (SSELoss_new 1 0) observed residuals 0 3) (25 # 4).
Proof.
  intros observed residuals.
  refine (conj _ (conj _ (conj _ (conj _ _)))).
  - eexists. eexists.
    refine (conj eq_refl (conj eq_refl (conj _ (conj _ _)))).
    + repeat constructor.
    + reflexivity.
    + reflexivity.
  - vm_compute. reflexivity.
  - vm_compute. reflexivity.
  - vm_compute. reflexivity.
  - vm_compute. reflexivity.
Qed.

(** C1, as the code has it.  On sequences of equal length and a valid
    inclusive range, [SimilarityScore] takes its gradients as
    [Gradients (observed[begin..end]) (residuals[begin..end])]: the gradient
    at each index of the range is the residual minus the observed value,
    and the gradients sum to the sum of the residuals slice minus the sum of
    the observed slice. *)
Theorem SimilarityScore_gradients_observed (observed residuals : vec)
    (begin end_ : nat)
    (Hlen : length observed = length residuals)
    (Hrange : (begin <= end_)%nat)
    (Hend : (end_ < length observed)%nat) :
  exists os rs g : vec,
    arma.subvec observed begin end_ = Ok os /\
    arma.subvec residuals begin end_ = Ok rs /\
    SimilarityScore_gradients observed residuals begin end_ = Ok g /\
    Gradients os rs = Ok g /\
    length g = (end_ - begin + 1)%nat /\
    (forall i : nat, (i <= end_ - begin)%nat ->
       nth i g 0
       = nth (begin + i) residuals 0 - nth (begin + i) observed 0) /\
    arma.accu g == arma.accu rs - arma.accu os.
Proof.
  assert (Hres : (end_ < length residuals)%nat) by now rewrite <- Hlen.
  destruct (SimilarityScore_run SSELoss_default observed residuals begin end_
              Hrange Hend Hres)
    as (os & rs & g & Eo & Es & Eg & EG & _).
  exists os, rs, g.
  pose proof (subvec_length _ _ _ _ Es) as Ls.
  do 4 (split; [assumption|]).
  split; [now rewrite (minus_length _ _ _ Eg)|].
  split.
  - intros i Hi.
    rewrite (minus_nth _ _ _ i Eg) by lia.
    now rewrite (subvec_nth _ _ _ _ _ Es Hi), (subvec_nth _ _ _ _ _ Eo Hi).
  - exact (accu_minus _ _ _ Eg).
Qed.

Lemma SimilarityScore_gradients_observed_witness :
  exists os rs g : vec,
    arma.subvec [1; 2; 3; 4] 1 3 = Ok os /\
    arma.subvec [1; 1; 1; 1] 1 3 = Ok rs /\
    SimilarityScore_gradients [1; 2; 3; 4] [1; 1; 1; 1] 1 3 = Ok g /\
    Gradients os rs = Ok g /\
    length g = (3 - 1 + 1)%nat /\
    (forall i : nat, (i <= 3 - 1)%nat ->
       nth i g 0
       = nth (1 + i) [1; 1; 1; 1] 0 - nth (1 + i) [1; 2; 3; 4] 0) /\
    arma.accu g == arma.accu rs - arma.accu os.
Proof.
  apply (SimilarityScore_gradients_observed [1; 2; 3; 4] [1; 1; 1; 1]
           1%nat 3%nat); simpl; first [reflexivity | lia].
Defined.

(** C1, as stated, fails: on [observed = [1;2;3;4]],
    [residuals = [1;1;1;1]] and the range [0..3], the gradients of
    [SimilarityScore] are not those of the residuals slice against itself,
    and their sum is -6, not 0. *)
Lemma SimilarityScore_gradients_not_residuals_twice :
  let observed := [1; 2; 3; 4] in
  let residuals := [1; 1; 1; 1] in
  length observed = length residuals /\
  (0 <= 3)%nat /\ (3 < length observed)%nat /\
  exists g g' : vec,
    SimilarityScore_gradients observed residuals 0 3 = Ok g /\
    (rs <- arma.subvec residuals 0 3 ;; Gradients rs rs) = Ok g' /\
    ~ Forall2 Qeq g g' /\
    arma.accu g == -6 /\ ~ arma.accu g == 0.
Proof.
  intros observed residuals.
  refine (conj eq_refl (conj _ (conj _ _))); [lia | simpl; lia |].
  exists [1 - 1; 1 - 2; 1 - 3; 1 - 4], [1 - 1; 1 - 1; 1 - 1; 1 - 1].
  refine (conj eq_refl (conj eq_refl (conj _ (conj _ _)))).
  - intro F. inversion F as [|? ? ? ? _ F1]. inversion F1 as [|? ? ? ? E _].
    vm_compute in E. discriminate.
  - reflexivity.
  - vm_compute. discriminate.
Qed.

(** * Further properties of the class *)

(** ** [ApplyL1] *)

(** X1.  For a non-negative [alpha], [ApplyL1] shrinks its argument towards
    zero and never across it: a non-negative sum stays between 0 and
    itself, a non-positive sum between itself and 0. *)
Theorem ApplyL1_shrinks (self : SSELoss) (s : Q)
    (Halpha : 0 <= alpha self) :
  (0 <= s -> 0 <= ApplyL1 self s /\ ApplyL1 self s <= s) /\
  (s <= 0 -> s <= ApplyL1 self s /\ ApplyL1 self s <= 0).
Proof.
  split; intro Hs; split; ApplyL1_cases; lra.
Qed.

Lemma ApplyL1_shrinks_witness :
  0 <= ApplyL1 (SSELoss_new 2 0) 5 /\ ApplyL1 (SSELoss_new 2 0) 5 <= 5.
Proof.
  apply (ApplyL1_shrinks (SSELoss_new 2 0) 5); simpl; lra.
Defined.

(** X2.  For a non-negative [alpha], [ApplyL1 s] is zero exactly on the
    dead zone [- alpha <= s <= alpha]. *)
Theorem ApplyL1_zero_iff (self : SSELoss) (s : Q)
    (Halpha : 0 <= alpha self) :
  ApplyL1 self s == 0 <-> - alpha self <= s /\ s <= alpha self.
Proof.
  split.
  - intro Z. split; revert Z; ApplyL1_cases; intro Z; lra.
  - intros [L U]. ApplyL1_cases; lra.
Qed.

Lemma ApplyL1_zero_iff_witness :
  ApplyL1 (SSELoss_new 2 0) (-2) == 0.
Proof.
  apply (ApplyL1_zero_iff (SSELoss_new 2 0) (-2)); simpl; lra.
Defined.

(** X3.  For a non-negative [alpha], [ApplyL1] is monotone and does not
    stretch distances: for [s <= t], the images are in the same order and
    at most [t - s] apart. *)
Theorem ApplyL1_monotone_nonexpansive (self : SSELoss) (s t : Q)
    (Halpha : 0 <= alpha self) (Hst : s <= t) :
  ApplyL1 self s <= ApplyL1 self t /\
  ApplyL1 self t - ApplyL1 self s <= t - s.
Proof.
  split; ApplyL1_cases; lra.
Qed.

Lemma ApplyL1_monotone_nonexpansive_witness :
  ApplyL1 (SSELoss_new 2 0) (-1) <= ApplyL1 (SSELoss_new 2 0) 5 /\
  ApplyL1 (SSELoss_new 2 0) 5 - ApplyL1 (SSELoss_new 2 0) (-1) <= 5 - (-1).
Proof.
  apply (ApplyL1_monotone_nonexpansive (SSELoss_new 2 0) (-1) 5);
    simpl; lra.
Defined.

(** X4.  The constructor does not check [alpha].  With a negative [alpha]
    the last branch of [ApplyL1] is never taken: the result is [s - alpha]
    above [alpha] and [s + alpha] from [alpha] down, it is never zero, and
    [ApplyL1 0] is [- alpha]. *)
Theorem ApplyL1_negative_alpha (self : SSELoss) (s : Q)
    (Halpha : alpha self < 0) :
  (alpha self < s -> ApplyL1 self s = s - alpha self) /\
  (s <= alpha self -> ApplyL1 self s = s + alpha self) /\
  ~ ApplyL1 self s == 0 /\
  ApplyL1 self 0 == - alpha self.
Proof.
  refine (conj _ (conj _ (conj _ _))).
  - intro H. ApplyL1_cases; solve [reflexivity | exfalso; lra].
  - intro H. ApplyL1_cases; solve [reflexivity | exfalso; lra].
  - ApplyL1_cases; lra.
  - ApplyL1_cases; lra.
Qed.

Lemma ApplyL1_negative_alpha_witness :
  ~ ApplyL1 (SSELoss_new (-1) 0) 0 == 0 /\
  ApplyL1 (SSELoss_new (-1) 0) 0 == - (-1).
Proof.
  apply (ApplyL1_negative_alpha (SSELoss_new (-1) 0) 0). simpl. lra.
Defined.

(** ** Helper facts for sums, means and element-wise differences *)

Lemma of_size_0 : of_size 0 == 0.
Proof. reflexivity. Qed.

Lemma accu_repeat (c : Q) (n : nat) :
  arma.accu (repeat c n) == of_size n * c.
Proof.
  induction n as [|n IH].
  - simpl repeat. rewrite accu_nil, of_size_0. lra.
  - change (repeat c (S n)) with (c :: repeat c n).
    rewrite accu_cons, IH, of_size_S. lra.
Qed.

Lemma accu_between (v : vec) (lo hi : Q) :
  Forall (fun x => lo <= x /\ x <= hi) v ->
  of_size (length v) * lo <= arma.accu v /\
  arma.accu v <= of_size (length v) * hi.
Proof.
  induction 1 as [|x v [Hlo Hhi] _ [IHlo IHhi]].
  - simpl length. rewrite accu_nil, of_size_0. lra.
  - simpl length. rewrite accu_cons, of_size_S. lra.
Qed.

Lemma InitialPrediction_ok (values : vec) :
  values <> [] ->
  1 <= of_size (length values) /\
  InitialPrediction values
  = Ok (arma.accu values / of_size (length values)).
Proof.
  intro N. destruct values as [|x values]; [congruence|].
  assert (P : 1 <= of_size (length (x :: values)))
    by (apply of_size_pos; simpl; lia).
  split; [exact P|].
  unfold InitialPrediction.
  change (length (x :: values) =? 0)%nat with false. cbv iota.
  apply divide_ok. lra.
Qed.

Lemma minus_minus (a b : vec) :
  length a = length b ->
  Forall2 Qeq
    (map (fun p => fst p - snd p)
       (combine a (map (fun p => fst p - snd p) (combine a b))))
    b.
Proof.
  revert b. induction a as [|x a IH]; intros [|y b] L; simpl in L;
    try discriminate; simpl.
  - constructor.
  - constructor; [lra | apply IH; lia].
Qed.

Lemma nth_ones (n i : nat) : (i < n)%nat -> nth i (arma.ones n) 0 = 1.
Proof.
  intro H. unfold arma.ones. now apply nth_repeat_lt.
Qed.

(** ** [InitialPrediction], [Gradients], [Hessians] and [Residuals] *)

(** X5.  The initial prediction of a non-empty sequence lies between any
    lower and upper bound of its elements. *)
Theorem InitialPrediction_between (values : vec) (lo hi : Q)
    (Hne : values <> [])
    (Hb : Forall (fun x => lo <= x /\ x <= hi) values) :
  exists p : Q,
    InitialPrediction values = Ok p /\ lo <= p /\ p <= hi.
Proof.
  destruct (InitialPrediction_ok values Hne) as [P E].
  destruct (accu_between values lo hi Hb) as [L U].
  eexists. split; [exact E|]. split.
  - apply Qle_shift_div_l; [lra|]. lra.
  - apply Qle_shift_div_r; [lra|]. lra.
Qed.

Lemma InitialPrediction_between_witness :
  exists p : Q,
    InitialPrediction [1; 2; 3; 4] = Ok p /\ 1 <= p /\ p <= 4.
Proof.
  apply (InitialPrediction_between [1; 2; 3; 4] 1 4).
  - discriminate.
  - repeat constructor; simpl; lra.
Defined.

(** X6.  Seeding the predictions of a non-empty sample with its initial
    prediction leaves residuals, and gradients, that sum to zero. *)
Theorem InitialPrediction_residuals_sum_zero (observed : vec)
    (Hne : observed <> []) :
  exists (p : Q) (r g : vec),
    InitialPrediction observed = Ok p /\
    Residuals observed (repeat p (length observed)) = Ok r /\
    Gradients observed (repeat p (length observed)) = Ok g /\
    arma.accu r == 0 /\ arma.accu g == 0.
Proof.
  destruct (InitialPrediction_ok observed Hne) as [P E].
  set (p := arma.accu observed / of_size (length observed)) in E.
  assert (L : length observed = length (repeat p (length observed)))
    by now rewrite repeat_length.
  pose proof (minus_ok _ _ L) as Er.
  pose proof (minus_ok _ _ (eq_sym L)) as Eg.
  assert (S : of_size (length observed) * p == arma.accu observed)
    by (unfold p; field; lra).
  exists p. eexists. eexists.
  split; [exact E|]. split; [exact Er|]. split; [exact Eg|].
  rewrite (accu_minus _ _ _ Er), (accu_minus _ _ _ Eg), accu_repeat, S.
  split; lra.
Qed.

Lemma InitialPrediction_residuals_sum_zero_witness :
  exists (p : Q) (r g : vec),
    InitialPrediction [1; 2; 3; 4] = Ok p /\
    Residuals [1; 2; 3; 4] (repeat p 4) = Ok r /\
    Gradients [1; 2; 3; 4] (repeat p 4) = Ok g /\
    arma.accu r == 0 /\ arma.accu g == 0.
Proof.
  apply (InitialPrediction_residuals_sum_zero [1; 2; 3; 4]). discriminate.
Defined.

(** X7.  Taking residuals against the same observed values twice gives the
    predictions back: [Residuals observed (Residuals observed f)] is [f],
    element by element. *)
Theorem Residuals_involutive (observed f : vec)
    (Hlen : length observed = length f) :
  exists r r' : vec,
    Residuals observed f = Ok r /\
    Residuals observed r = Ok r' /\
    Forall2 Qeq r' f.
Proof.
  pose proof (minus_ok observed f Hlen) as Er.
  set (r := map _ (combine observed f)) in Er.
  assert (Lr : length observed = length r)
    by (symmetry; exact (minus_length _ _ _ Er)).
  exists r. eexists. unfold Residuals.
  split; [exact Er|]. split; [exact (minus_ok observed r Lr)|].
  now apply minus_minus.
Qed.

Lemma Residuals_involutive_witness :
  exists r r' : vec,
    Residuals [1; 2; 3; 4] [1; 1; 1; 1] = Ok r /\
    Residuals [1; 2; 3; 4] r = Ok r' /\
    Forall2 Qeq r' [1; 1; 1; 1].
Proof.
  apply (Residuals_involutive [1; 2; 3; 4] [1; 1; 1; 1]). reflexivity.
Defined.

(** X8.  [Gradients] and [Hessians] are the first and second derivative of
    the documented loss [1/2 (observed - predicted)^2]: moving the
    prediction of sample [i] by [h] changes its loss by exactly
    [gradient_i * h + 1/2 * hessian_i * h^2]. *)
Theorem Gradients_Hessians_expand_Loss (observed values : vec)
    (Hlen : length observed = length values) :
  exists g : vec,
    Gradients observed values = Ok g /\
    forall (i : nat) (h : Q), (i < length values)%nat ->
      Loss (nth i observed 0) (nth i values 0 + h)
      == Loss (nth i observed 0) (nth i values 0)
         + nth i g 0 * h
         + (1 # 2) * nth i (Hessians observed values) 0 * h ^ 2.
Proof.
  pose proof (minus_ok values observed (eq_sym Hlen)) as Eg.
  eexists. split; [exact Eg|].
  intros i h Hi.
  rewrite (minus_nth _ _ _ i Eg Hi).
  unfold Hessians. rewrite (nth_ones _ _ Hi).
  unfold Loss. simpl. ring.
Qed.

Lemma Gradients_Hessians_expand_Loss_witness :
  exists g : vec,
    Gradients [1; 2; 3; 4] [1; 1; 1; 1] = Ok g /\
    forall (i : nat) (h : Q), (i < 4)%nat ->
      Loss (nth i [1; 2; 3; 4] 0) (nth i [1; 1; 1; 1] 0 + h)
      == Loss (nth i [1; 2; 3; 4] 0) (nth i [1; 1; 1; 1] 0)
         + nth i g 0 * h
         + (1 # 2) * nth i (Hessians [1; 2; 3; 4] [1; 1; 1; 1]) 0 * h ^ 2.
Proof.
  apply (Gradients_Hessians_expand_Loss [1; 2; 3; 4] [1; 1; 1; 1]).
  reflexivity.
Defined.

(** ** Helper facts for the leaf value *)

Lemma Qpow2 (x : Q) : x ^ 2 == x * x.
Proof. simpl. reflexivity. Qed.

Lemma leaf_Loss_expand (observed f : vec) (w : Q) :
  length observed = length f ->
  leaf_Loss observed f w
  == leaf_Loss observed f 0
     + (arma.accu f - arma.accu observed) * w
     + (1 # 2) * of_size (length f) * (w * w).
Proof.
  revert f. induction observed as [|o observed IH]; intros [|p f] L;
    simpl in L; try discriminate.
  - simpl leaf_Loss. simpl length. rewrite accu_nil, of_size_0. ring.
  - simpl leaf_Loss. simpl length.
    rewrite (IH f) by lia. rewrite !accu_cons, of_size_S.
    unfold Loss. rewrite !Qpow2. ring.
Qed.

Lemma leaf_objective_min (self : SSELoss) (G D w out : Q) :
  0 <= alpha self -> 0 < D -> out == - ApplyL1 self G / D ->
  G * out + (1 # 2) * D * (out * out) + alpha self * Qabs out
  <= G * w + (1 # 2) * D * (w * w) + alpha self * Qabs w.
Proof.
  intros A P E.
  assert (M : D * out == - ApplyL1 self G) by (rewrite E; field; lra).
  clear E.
  assert (E1 : D * out * w == - ApplyL1 self G * w) by now rewrite M.
  assert (E2 : D * out * out == - ApplyL1 self G * out) by now rewrite M.
  assert (S : 0 <= D * ((w - out) * (w - out))).
  { apply Qmult_le_0_compat; [lra|].
    rewrite <- Qpow2. apply Qsquare_nonneg. }
  assert (Wl : 0 <= Qabs w - w) by (pose proof (Qle_Qabs w); lra).
  assert (Wu : 0 <= Qabs w + w).
  { pose proof (Qle_Qabs (- w)) as H. rewrite Qabs_opp in H. lra. }
  pose proof (Qmult_le_0_compat _ _ A Wl) as H1.
  pose proof (Qmult_le_0_compat _ _ A Wu) as H2.
  revert M E1 E2. ApplyL1_cases; intros M E1 E2.
  - assert (O : out <= 0).
    { apply Qnot_lt_le. intro C.
      assert (0 <= D * out) by (apply Qmult_le_0_compat; lra). lra. }
    rewrite (Qabs_neg out O). lra.
  - assert (O : 0 <= out).
    { apply Qnot_lt_le. intro C.
      assert (0 <= D * (- out)) by (apply Qmult_le_0_compat; lra). lra. }
    rewrite (Qabs_pos out O). lra.
  - assert (O : out == 0).
    { destruct (Qmult_integral D out) as [Z|Z]; lra. }
    rewrite O.
    assert (K1 : 0 <= (alpha self - G) * (Qabs w - w))
      by (apply Qmult_le_0_compat; lra).
    assert (K2 : 0 <= (alpha self + G) * (Qabs w + w))
      by (apply Qmult_le_0_compat; lra).
    change (Qabs 0) with 0. lra.
Qed.

Lemma OutputValue_leaf_run (self : SSELoss) (observed f : vec) :
  length observed = length f -> f <> [] -> 0 <= lambda self ->
  exists (g : vec) (out : Q),
    Gradients observed f = Ok g /\
    arma.accu g == arma.accu f - arma.accu observed /\
    1 <= of_size (length f) /\
    OutputValue self g (Hessians observed f) = Ok out /\
    out == - ApplyL1 self (arma.accu f - arma.accu observed)
           / (of_size (length f) + lambda self).
Proof.
  intros L N Hl.
  pose proof (minus_ok f observed (eq_sym L)) as Eg.
  pose proof (accu_minus _ _ _ Eg) as Ea.
  assert (P : 1 <= of_size (length f)).
  { apply of_size_pos. destruct f; [congruence | simpl; lia]. }
  assert (Eh : arma.accu (Hessians observed f) == of_size (length f))
    by apply accu_ones.
  eexists. eexists.
  split; [exact Eg|]. split; [exact Ea|]. split; [exact P|].
  split.
  - unfold OutputValue. apply divide_ok. rewrite Eh. lra.
  - rewrite (ApplyL1_compat self _ _ Ea), Eh. reflexivity.
Qed.

(** ** [OutputValue] *)

(** X9.  Without regularization, the output value of a non-empty leaf is
    the best constant correction for the documented loss: adding it to the
    predictions gives a total loss no larger than adding any other [w]. *)
Theorem OutputValue_minimises_Loss (observed f : vec) (w : Q)
    (Hlen : length observed = length f) (Hne : f <> []) :
  exists (g : vec) (out : Q),
    Gradients observed f = Ok g /\
    OutputValue SSELoss_default g (Hessians observed f) = Ok out /\
    leaf_Loss observed f out <= leaf_Loss observed f w.
Proof.
  destruct (OutputValue_leaf_run SSELoss_default observed f Hlen Hne)
    as (g & out & Eg & _ & P & Eo & Ev); [simpl; lra|].
  exists g, out. split; [exact Eg|]. split; [exact Eo|].
  rewrite (leaf_Loss_expand observed f out Hlen).
  rewrite (leaf_Loss_expand observed f w Hlen).
  simpl lambda in Ev.
  assert (Ev' : out == - ApplyL1 SSELoss_default
                          (arma.accu f - arma.accu observed)
                        / of_size (length f))
    by (rewrite Ev; field; lra).
  pose proof (leaf_objective_min SSELoss_default
                (arma.accu f - arma.accu observed)
                (of_size (length f)) w out) as M.
  simpl alpha in M. specialize (M ltac:(lra) ltac:(lra) Ev'). lra.
Qed.

Lemma OutputValue_minimises_Loss_witness :
  exists (g : vec) (out : Q),
    Gradients [1; 2; 3; 4] [1; 1; 1; 1] = Ok g /\
    OutputValue SSELoss_default g (Hessians [1; 2; 3; 4] [1; 1; 1; 1])
    = Ok out /\
    leaf_Loss [1; 2; 3; 4] [1; 1; 1; 1] out
    <= leaf_Loss [1; 2; 3; 4] [1; 1; 1; 1] 1.
Proof.
  apply (OutputValue_minimises_Loss [1; 2; 3; 4] [1; 1; 1; 1] 1).
  - reflexivity.
  - discriminate.
Defined.

(** X10.  With [alpha >= 0] and [lambda >= 0], the output value of a
    non-empty leaf minimises the regularized objective: the documented
    loss plus [lambda / 2 * w^2 + alpha * |w|]. *)
Theorem OutputValue_minimises_regularized_Loss
    (self : SSELoss) (observed f : vec) (w : Q)
    (Halpha : 0 <= alpha self) (Hlambda : 0 <= lambda self)
    (Hlen : length observed = length f) (Hne : f <> []) :
  exists (g : vec) (out : Q),
    Gradients observed f = Ok g /\
    OutputValue self g (Hessians observed f) = Ok out /\
    regularized_Loss self observed f out
    <= regularized_Loss self observed f w.
Proof.
  destruct (OutputValue_leaf_run self observed f Hlen Hne Hlambda)
    as (g & out & Eg & _ & P & Eo & Ev).
  exists g, out. split; [exact Eg|]. split; [exact Eo|].
  unfold regularized_Loss.
  rewrite (leaf_Loss_expand observed f out Hlen).
  rewrite (leaf_Loss_expand observed f w Hlen).
  pose proof (leaf_objective_min self
                (arma.accu f - arma.accu observed)
                (of_size (length f) + lambda self) w out
                Halpha ltac:(lra) Ev) as M.
  lra.
Qed.

Lemma OutputValue_minimises_regularized_Loss_witness :
  exists (g : vec) (out : Q),
    Gradients [1; 2; 3; 4] [1; 1; 1; 1] = Ok g /\
    OutputValue (SSELoss_new 1 2) g (Hessians [1; 2; 3; 4] [1; 1; 1; 1])
    = Ok out /\
    regularized_Loss (SSELoss_new 1 2) [1; 2; 3; 4] [1; 1; 1; 1] out
    <= regularized_Loss (SSELoss_new 1 2) [1; 2; 3; 4] [1; 1; 1; 1] 1.
Proof.
  apply (OutputValue_minimises_regularized_Loss (SSELoss_new 1 2)
           [1; 2; 3; 4] [1; 1; 1; 1] 1).
  - simpl. lra.
  - simpl. lra.
  - reflexivity.
  - discriminate.
Defined.

(** X11.  Without regularization, the output value of a non-empty leaf is
    the mean of its residuals: it is what [InitialPrediction] returns on
    [Residuals observed f]. *)
Theorem OutputValue_is_mean_residual (observed f : vec)
    (Hlen : length observed = length f) (Hne : f <> []) :
  exists (g r : vec) (out : Q),
    Gradients observed f = Ok g /\
    Residuals observed f = Ok r /\
    OutputValue SSELoss_default g (Hessians observed f) = Ok out /\
    returns (InitialPrediction r) out.
Proof.
  destruct (OutputValue_leaf_run SSELoss_default observed f Hlen Hne)
    as (g & out & Eg & _ & P & Eo & Ev); [simpl; lra|].
  pose proof (minus_ok observed f Hlen) as Er.
  set (r := map _ (combine observed f)) in Er.
  assert (Lr : length r = length f)
    by (rewrite (minus_length _ _ _ Er); exact Hlen).
  assert (Nr : r <> []).
  { intro Z. rewrite Z in Lr. destruct f; [congruence | discriminate]. }
  destruct (InitialPrediction_ok r Nr) as [_ Ei].
  exists g, r, out.
  split; [exact Eg|]. split; [exact Er|]. split; [exact Eo|].
  rewrite Ei. unfold returns.
  rewrite Ev, Lr, (accu_minus _ _ _ Er).
  rewrite (ApplyL1_no_L1 SSELoss_default) by reflexivity.
  simpl lambda. field. lra.
Qed.

Lemma OutputValue_is_mean_residual_witness :
  exists (g r : vec) (out : Q),
    Gradients [1; 2; 3; 4] [1; 1; 1; 1] = Ok g /\
    Residuals [1; 2; 3; 4] [1; 1; 1; 1] = Ok r /\
    OutputValue SSELoss_default g (Hessians [1; 2; 3; 4] [1; 1; 1; 1])
    = Ok out /\
    returns (InitialPrediction r) out.
Proof.
  apply (OutputValue_is_mean_residual [1; 2; 3; 4] [1; 1; 1; 1]).
  - reflexivity.
  - discriminate.
Defined.

(** X12.  On hessians made by [Hessians] and with [lambda >= 0],
    [OutputValue] has no value exactly when the leaf is empty and
    [lambda] is zero; in every other case it returns one. *)
Theorem OutputValue_Hessians_defined
    (self : SSELoss) (gradients observed values : vec)
    (Hlambda : 0 <= lambda self) :
  (OutputValue self gradients (Hessians observed values) = Err non_finite
   <-> values = [] /\ lambda self == 0) /\
  (values <> [] \/ 0 < lambda self ->
   exists out : Q,
     OutputValue self gradients (Hessians observed values) = Ok out).
Proof.
  assert (Eh : arma.accu (Hessians observed values)
               == of_size (length values)) by apply accu_ones.
  pose proof (of_size_nonneg (length values)) as P0.
  assert (Pos : values <> [] \/ 0 < lambda self ->
                ~ arma.accu (Hessians observed values) + lambda self == 0).
  { intros [N|L]; rewrite Eh; [|lra].
    assert (1 <= of_size (length values)); [|lra].
    apply of_size_pos. destruct values; [congruence | simpl; lia]. }
  split; [split|].
  - intro E. unfold OutputValue, divide in E.
    destruct (Qeq_bool _ 0) eqn:B in E; [|discriminate].
    apply Qeq_bool_iff in B.
    destruct values as [|x values].
    + split; [reflexivity|]. rewrite Eh, of_size_0 in B. lra.
    + exfalso. apply Pos; [left; discriminate | exact B].
  - intros [-> L]. unfold OutputValue. apply divide_zero.
    rewrite Eh. simpl length. rewrite of_size_0, L. reflexivity.
  - intro H. eexists. unfold OutputValue. apply divide_ok. now apply Pos.
Qed.

Lemma OutputValue_Hessians_defined_witness :
  exists out : Q,
    OutputValue (SSELoss_new 1 0) [0; -1] (Hessians [1; 2] [1; 1]) = Ok out.
Proof.
  apply (OutputValue_Hessians_defined (SSELoss_new 1 0) [0; -1] [1; 2] [1; 1]).
  - simpl. lra.
  - left. discriminate.
Defined.

(** X13.  With [alpha >= 0] and a positive divisor, the output value
    opposes the gradient sum: it is negative when the sum exceeds [alpha],
    positive when the sum is below [- alpha], and zero in between. *)
Theorem OutputValue_sign (self : SSELoss) (gradients hessians : vec)
    (Halpha : 0 <= alpha self)
    (Hden : 0 < arma.accu hessians + lambda self) :
  exists out : Q,
    OutputValue self gradients hessians = Ok out /\
    (alpha self < arma.accu gradients -> out < 0) /\
    (arma.accu gradients < - alpha self -> 0 < out) /\
    (- alpha self <= arma.accu gradients /\
     arma.accu gradients <= alpha self -> out == 0).
Proof.
  eexists. split; [unfold OutputValue; apply divide_ok; lra|].
  set (G := arma.accu gradients). set (D := arma.accu hessians + _) in *.
  refine (conj _ (conj _ _)).
  - intro H. apply Qlt_shift_div_r; [exact Hden|].
    rewrite Qmult_0_l. ApplyL1_cases; lra.
  - intro H. apply Qlt_shift_div_l; [exact Hden|].
    rewrite Qmult_0_l. ApplyL1_cases; lra.
  - intros [L U].
    assert (Z : ApplyL1 self G == 0) by (ApplyL1_cases; lra).
    rewrite Z. field. lra.
Qed.

Lemma OutputValue_sign_witness :
  exists out : Q,
    OutputValue (SSELoss_new 1 2) [0; -1; -2; -3] [1; 1; 1; 1] = Ok out /\
    0 < out.
Proof.
  destruct (OutputValue_sign (SSELoss_new 1 2) [0; -1; -2; -3] [1; 1; 1; 1])
    as (out & E & _ & Pos & _).
  - simpl. lra.
  - vm_compute. reflexivity.
  - exists out. split; [exact E|]. apply Pos. vm_compute. reflexivity.
Defined.

(** ** [SimilarityScore] *)

Lemma subvec_whole (v : vec) (n : nat) :
  length v = (n + 1)%nat -> arma.subvec v 0 n = Ok v.
Proof.
  intro L. rewrite subvec_ok by lia.
  rewrite Nat.sub_0_r, <- L. simpl skipn. now rewrite firstn_all.
Qed.


Lemma ApplyL1_alpha_le (self1 self2 : SSELoss) (s : Q) :
  0 <= alpha self1 -> alpha self1 <= alpha self2 ->
  ApplyL1 self2 s * ApplyL1 self2 s <= ApplyL1 self1 s * ApplyL1 self1 s.
Proof.
  intros A1 A2.
  assert (H : (0 <= ApplyL1 self2 s /\ ApplyL1 self2 s <= ApplyL1 self1 s) \/
              (ApplyL1 self1 s <= ApplyL1 self2 s /\ ApplyL1 self2 s <= 0))
    by (ApplyL1_cases; lra).
  destruct H as [[L U]|[L U]]; nra.
Qed.

(** X14.  On a valid range and with [lambda >= 0], the similarity score is
    the square of the leaf's output value times the divisor
    [sum hessians + lambda]. *)
Theorem SimilarityScore_from_OutputValue
    (self : SSELoss) (observed residuals : vec) (begin end_ : nat)
    (Hrange : (begin <= end_)%nat)
    (Hobs : (end_ < length observed)%nat)
    (Hres : (end_ < length residuals)%nat)
    (Hlambda : 0 <= lambda self) :
  exists (g h : vec) (out score : Q),
    SimilarityScore_gradients observed residuals begin end_ = Ok g /\
    SimilarityScore_hessians observed residuals begin end_ = Ok h /\
    OutputValue self g h = Ok out /\
    SimilarityScore self observed residuals begin end_ = Ok score /\
    score == out ^ 2 * (arma.accu h + lambda self).
Proof.
  destruct (SimilarityScore_run self observed residuals begin end_
              Hrange Hobs Hres)
    as (os & rs & g & _ & _ & _ & Eg & Eh & Ea & ->).
  pose proof (of_size_pos (end_ - begin + 1) ltac:(lia)) as P.
  assert (D : ~ arma.accu (Hessians os rs) + lambda self == 0)
    by (rewrite Ea; lra).
  exists g, (Hessians os rs). eexists. eexists.
  split; [exact Eg|]. split; [exact Eh|].
  split; [unfold OutputValue; apply (divide_ok _ _ D)|].
  split; [apply (divide_ok _ _ D)|].
  rewrite !Qpow2. field. exact D.
Qed.

Lemma SimilarityScore_from_OutputValue_witness :
  exists (g h : vec) (out score : Q),
    SimilarityScore_gradients [1; 2; 3; 4] [1; 1; 1; 1] 1 3 = Ok g /\
    SimilarityScore_hessians [1; 2; 3; 4] [1; 1; 1; 1] 1 3 = Ok h /\
    OutputValue (SSELoss_new 1 2) g h = Ok out /\
    SimilarityScore (SSELoss_new 1 2) [1; 2; 3; 4] [1; 1; 1; 1] 1 3
    = Ok score /\
    score == out ^ 2 * (arma.accu h + 2).
Proof.
  apply (SimilarityScore_from_OutputValue (SSELoss_new 1 2)
           [1; 2; 3; 4] [1; 1; 1; 1] 1%nat 3%nat);
    simpl; first [lia | lra].
Defined.

(** X15.  With [alpha >= 0] and [lambda >= 0], the similarity score does
    not change when the observed and the residual vectors are swapped. *)
Theorem SimilarityScore_swap
    (self : SSELoss) (observed residuals : vec) (begin end_ : nat)
    (Hrange : (begin <= end_)%nat)
    (Hobs : (end_ < length observed)%nat)
    (Hres : (end_ < length residuals)%nat)
    (Halpha : 0 <= alpha self) (Hlambda : 0 <= lambda self) :
  exists s1 s2 : Q,
    SimilarityScore self observed residuals begin end_ = Ok s1 /\
    SimilarityScore self residuals observed begin end_ = Ok s2 /\
    s1 == s2.
Proof.
  destruct (SimilarityScore_run self observed residuals begin end_
              Hrange Hobs Hres)
    as (os & rs & g1 & Eo & Es & Eg1 & _ & _ & Ea1 & ->).
  destruct (SimilarityScore_run self residuals observed begin end_
              Hrange Hres Hobs)
    as (rs' & os' & g2 & Es' & Eo' & Eg2 & _ & _ & Ea2 & ->).
  rewrite Es in Es'. injection Es' as <-.
  rewrite Eo in Eo'. injection Eo' as <-.
  pose proof (of_size_pos (end_ - begin + 1) ltac:(lia)) as P.
  rewrite !divide_ok by (rewrite ?Ea1, ?Ea2; lra).
  eexists. eexists. split; [reflexivity|]. split; [reflexivity|].
  assert (T : ApplyL1 self (arma.accu g2) == - ApplyL1 self (arma.accu g1)).
  { rewrite <- (ApplyL1_opp self _ Halpha). apply ApplyL1_compat.
    rewrite (accu_minus _ _ _ Eg1), (accu_minus _ _ _ Eg2). lra. }
  rewrite !Qpow2, T, Ea1, Ea2. field. lra.
Qed.

Lemma SimilarityScore_swap_witness :
  exists s1 s2 : Q,
    SimilarityScore (SSELoss_new 1 2) [1; 2; 3; 4] [1; 1; 1; 1] 1 3 = Ok s1 /\
    SimilarityScore (SSELoss_new 1 2) [1; 1; 1; 1] [1; 2; 3; 4] 1 3 = Ok s2 /\
    s1 == s2.
Proof.
  apply (SimilarityScore_swap (SSELoss_new 1 2)
           [1; 2; 3; 4] [1; 1; 1; 1] 1%nat 3%nat);
    simpl; first [lia | lra].
Defined.



(** X17.  [SimilarityScore] reads only the two slices: it returns the same
    result as on the slices themselves, taken over their whole range, so
    the elements outside [begin..end] have no effect. *)
Theorem SimilarityScore_slice
    (self : SSELoss) (observed residuals os rs : vec) (begin end_ : nat)
    (Hos : arma.subvec observed begin end_ = Ok os)
    (Hrs : arma.subvec residuals begin end_ = Ok rs) :
  SimilarityScore self observed residuals begin end_
  = SimilarityScore self os rs 0 (end_ - begin).
Proof.
  pose proof (subvec_whole os _ (subvec_length _ _ _ _ Hos)) as Wo.
  pose proof (subvec_whole rs _ (subvec_length _ _ _ _ Hrs)) as Wr.
  unfold SimilarityScore, SimilarityScore_gradients,
    SimilarityScore_hessians.
  rewrite Hos, Hrs, Wo, Wr. reflexivity.
Qed.

Lemma SimilarityScore_slice_witness :
  SimilarityScore (SSELoss_new 1 2) [1; 2; 3; 4] [1; 1; 1; 1] 1 2
  = SimilarityScore (SSELoss_new 1 2) [2; 3] [1; 1] 0 (2 - 1).
Proof.
  apply (SimilarityScore_slice (SSELoss_new 1 2)
           [1; 2; 3; 4] [1; 1; 1; 1] [2; 3] [1; 1] 1%nat 2%nat);
    reflexivity.
Defined.

(** X18.  With [alpha >= 0] and [lambda >= 0], the score of a valid range
    is zero exactly when the difference between the sums of the two slices
    is within [alpha] of zero; in particular it is zero when the two slices
    have the same sum. *)
Theorem SimilarityScore_zero_iff
    (self : SSELoss) (observed residuals : vec) (begin end_ : nat)
    (Hrange : (begin <= end_)%nat)
    (Hobs : (end_ < length observed)%nat)
    (Hres : (end_ < length residuals)%nat)
    (Halpha : 0 <= alpha self) (Hlambda : 0 <= lambda self) :
  exists (os rs : vec) (score : Q),
    arma.subvec observed begin end_ = Ok os /\
    arma.subvec residuals begin end_ = Ok rs /\
    SimilarityScore self observed residuals begin end_ = Ok score /\
    (score == 0 <->
     - alpha self <= arma.accu rs - arma.accu os /\
     arma.accu rs - arma.accu os <= alpha self).
Proof.
  destruct (SimilarityScore_run self observed residuals begin end_
              Hrange Hobs Hres)
    as (os & rs & g & Eo & Es & Eg & _ & _ & Ea & ->).
  pose proof (of_size_pos (end_ - begin + 1) ltac:(lia)) as P.
  set (D := arma.accu (Hessians os rs) + lambda self) in *.
  assert (HD : 0 < D) by (unfold D; rewrite Ea; lra).
  rewrite divide_ok by lra.
  exists os, rs. eexists.
  split; [exact Eo|]. split; [exact Es|]. split; [reflexivity|].
  pose proof (ApplyL1_compat self _ _ (accu_minus _ _ _ Eg)) as C.
  rewrite Qpow2, C.
  set (T := ApplyL1 self (arma.accu rs - arma.accu os)).
  assert (Z : T * T / D == 0 <-> T == 0).
  { split; intro H.
    - assert (M : T * T == 0).
      { setoid_replace (T * T) with (T * T / D * D) by (field; lra).
        rewrite H. ring. }
      destruct (Qmult_integral _ _ M); assumption.
    - rewrite H. field. lra. }
  rewrite Z. unfold T.
  split.
  - intro H. split; revert H; ApplyL1_cases; intro H; lra.
  - intros [L U]. ApplyL1_cases; lra.
Qed.

Lemma SimilarityScore_zero_iff_witness :
  exists (os rs : vec) (score : Q),
    arma.subvec [1; 2; 3; 4] 0 1 = Ok os /\
    arma.subvec [2; 2; 0; 0] 0 1 = Ok rs /\
    SimilarityScore (SSELoss_new 1 2) [1; 2; 3; 4] [2; 2; 0; 0] 0 1
    = Ok score /\
    (score == 0 <->
     - (1) <= arma.accu rs - arma.accu os /\
     arma.accu rs - arma.accu os <= 1).
Proof.
  apply (SimilarityScore_zero_iff (SSELoss_new 1 2)
           [1; 2; 3; 4] [2; 2; 0; 0] 0%nat 1%nat);
    simpl; first [lia | lra].
Defined.

(** X19.  Regularization never raises the score: on a valid range, a loss
    with larger (non-negative) [alpha] and [lambda] gives a score that is
    at most the score of a loss with smaller ones. *)
Theorem SimilarityScore_antitone_in_regularization
    (self1 self2 : SSELoss) (observed residuals : vec) (begin end_ : nat)
    (Hrange : (begin <= end_)%nat)
    (Hobs : (end_ < length observed)%nat)
    (Hres : (end_ < length residuals)%nat)
    (Halpha1 : 0 <= alpha self1) (Halpha : alpha self1 <= alpha self2)
    (Hlambda1 : 0 <= lambda self1) (Hlambda : lambda self1 <= lambda self2) :
  exists s1 s2 : Q,
    SimilarityScore self1 observed residuals begin end_ = Ok s1 /\
    SimilarityScore self2 observed residuals begin end_ = Ok s2 /\
    s2 <= s1.
Proof.
  destruct (SimilarityScore_run self1 observed residuals begin end_
              Hrange Hobs Hres)
    as (os & rs & g & Eo & Es & Eg & EG & _ & Ea & ->).
  destruct (SimilarityScore_run self2 observed residuals begin end_
              Hrange Hobs Hres)
    as (os' & rs' & g' & Eo' & Es' & _ & EG' & _ & _ & ->).
  rewrite Eo in Eo'. injection Eo' as <-.
  rewrite Es in Es'. injection Es' as <-.
  rewrite EG in EG'. injection EG' as <-.
  pose proof (of_size_pos (end_ - begin + 1) ltac:(lia)) as P.
  set (H := arma.accu (Hessians os rs)) in *.
  rewrite !divide_ok by (rewrite Ea; lra).
  eexists. eexists. split; [reflexivity|]. split; [reflexivity|].
  rewrite !Qpow2.
  pose proof (ApplyL1_alpha_le self1 self2 (arma.accu g) Halpha1 Halpha)
    as HT.
  set (T1 := ApplyL1 self1 (arma.accu g)) in *.
  set (T2 := ApplyL1 self2 (arma.accu g)) in *.
  assert (D1 : 0 < H + lambda self1) by (rewrite Ea; lra).
  assert (D2 : 0 < H + lambda self2) by (rewrite Ea; lra).
  assert (X : 0 <= T1 * T1 / (H + lambda self1)).
  { apply Qle_shift_div_l; [exact D1|]. rewrite Qmult_0_l.
    rewrite <- Qpow2. apply Qsquare_nonneg. }
  apply Qle_shift_div_r; [exact D2|].
  assert (E : T1 * T1 / (H + lambda self1) * (H + lambda self1) == T1 * T1)
    by (field; lra).
  assert (M : 0 <= T1 * T1 / (H + lambda self1)
                   * (lambda self2 - lambda self1))
    by (apply Qmult_le_0_compat; lra).
  lra.
Qed.

Lemma SimilarityScore_antitone_in_regularization_witness :
  exists s1 s2 : Q,
    SimilarityScore SSELoss_default [1; 2; 3; 4] [1; 1; 1; 1] 0 3 = Ok s1 /\
    SimilarityScore (SSELoss_new 1 2) [1; 2; 3; 4] [1; 1; 1; 1] 0 3
    = Ok s2 /\
    s2 <= s1.
Proof.
  apply (SimilarityScore_antitone_in_regularization
           SSELoss_default (SSELoss_new 1 2)
           [1; 2; 3; 4] [1; 1; 1; 1] 0%nat 3%nat);
    simpl; first [lia | lra].
Defined.
